(** * transfom.py: character-art escaper

    A shallow embedding of [src/transfom.py].  The script prints a prompt,
    reads lines from standard input until an empty line or end of input,
    escapes backslashes and double quotes in every line, and prints each
    escaped line as a quoted string-literal fragment followed by [+], and a
    final empty-string fragment.

    Python strings are sequences of Unicode code points, so a character is a
    code point ([N]) and a string is a list of them.  Standard input is the
    sequence of lines still to be read and standard output is the text
    written so far; [input()] and [print()] are operations of a small
    state-and-exception monad over that world. *)

From Stdlib Require Import String Ascii.
From Stdlib Require Import List NArith Arith Bool Lia.
From Stdlib Require Import FunInd Recdef.
Import ListNotations.

(** ** Strings *)

Module Str.

Definition char := N.
Definition str := list char.

Definition backslash : char := 92%N.
Definition dquote : char := 34%N.
Definition newline : char := 10%N.
Definition space : char := 32%N.
Definition plus_sign : char := 43%N.
Definition letter_n : char := 110%N.

(** ASCII literals of the development, as code points. *)
Fixpoint of_string (s : String.string) : str :=
  match s with
  | String.EmptyString => []
  | String.String a s' => Ascii.N_of_ascii a :: of_string s'
  end.

(** [a == b] on strings. *)
Fixpoint eqb (a b : str) : bool :=
  match a, b with
  | [], [] => true
  | x :: a', y :: b' => N.eqb x y && eqb a' b'
  | _, _ => false
  end.

(** [s.startswith(p)] *)
Fixpoint starts_with (p s : str) : bool :=
  match p, s with
  | [], _ => true
  | _ :: _, [] => false
  | x :: p', y :: s' => N.eqb x y && starts_with p' s'
  end.

(** The scan of [str.replace] for a non-empty [old]: left to right, an
    occurrence of [old] at the current position is replaced by [new] and
    skipped whole ([skip] counts the characters of it still to pass), any
    other character is copied. *)
Fixpoint replace_from (old new : str) (skip : nat) (s : str) : str :=
  match s with
  | [] => []
  | c :: s' =>
      match skip with
      | S k => replace_from old new k s'
      | O =>
          if starts_with old s
          then new ++ replace_from old new (length old - 1) s'
          else c :: replace_from old new 0 s'
      end
  end.

(** [s.replace(old, new)]: every non-overlapping occurrence of [old],
    leftmost first; an empty [old] matches before every character and at
    the end. *)
Definition replace (old new s : str) : str :=
  match old with
  | [] => new ++ flat_map (fun c => c :: new) s
  | _ :: _ => replace_from old new 0 s
  end.

(** What the specification calls replacing every character [c] by the
    characters [new]: a character-wise substitution. *)
Definition subst_char (c : char) (new : str) (s : str) : str :=
  flat_map (fun x => if N.eqb x c then new else [x]) s.

(** The lines of a text: the pieces that end at each newline, and a
    last unterminated piece if there is one. *)
Fixpoint split_lines (s : str) : list str :=
  match s with
  | [] => []
  | c :: s' =>
      if N.eqb c newline then [] :: split_lines s'
      else match split_lines s' with
           | [] => [[c]]
           | l :: ls => (c :: l) :: ls
           end
  end.

End Str.

Import Str.

(** ** The world, exceptions and the monad *)

Record world := World
  { stdin : list str;   (* the lines not read yet *)
    stdout : str }.     (* the text written so far *)

Inductive exn := EOFError.

Inductive result (A : Type) :=
| Return (a : A)
| Raise (e : exn).
Arguments Return {A} a.
Arguments Raise {A} e.

Definition IO (A : Type) := world -> result A * world.

Definition ret {A} (a : A) : IO A := fun w => (Return a, w).

Definition bind {A B} (m : IO A) (k : A -> IO B) : IO B :=
  fun w =>
    match m w with
    | (Return a, w') => k a w'
    | (Raise e, w') => (Raise e, w')
    end.

Declare Scope io_scope.
Delimit Scope io_scope with io.
Notation "x <- m ;; k" := (bind m (fun x => k))
  (at level 100, m at next level, right associativity) : io_scope.
Notation "m ;; k" := (bind m (fun _ => k))
  (at level 100, right associativity) : io_scope.
Open Scope io_scope.

(** [input()]: the next line without its line terminator, or [EOFError]
    when the stream is exhausted. *)
Definition input : IO str :=
  fun w =>
    match stdin w with
    | [] => (Raise EOFError, w)
    | line :: rest => (Return line, {| stdin := rest; stdout := stdout w |})
    end.

(** [print(s)]: [s] and a newline are written to standard output. *)
Definition print (s : str) : IO unit :=
  fun w => (Return tt, {| stdin := stdin w; stdout := stdout w ++ s ++ [newline] |}).

(** [for x in xs: body(x)] *)
Fixpoint for_each {A} (xs : list A) (body : A -> IO unit) : IO unit :=
  match xs with
  | [] => ret tt
  | x :: xs' => body x ;; for_each xs' body
  end.

(** ** The program *)

Definition prompt : str :=
  [35831; 36755; 20837; 23383; 31526; 30011; 65292;
   36755; 20837; 31354; 34892; 32467; 26463; 65306]%N.

Definition header : str :=
  ([newline] ++
   [36716; 20041; 21518; 30340; 23383; 31526; 30011; 65306] ++
   [newline])%N.

(** The [while True] loop of lines 5-12, entered with the buffer [lines]:
    [line = input()] under [try], with [except EOFError: break]; then
    [break] if [line] is the empty string; otherwise [lines.append(line)]
    and the next iteration.  Every iteration that goes on has consumed a
    line of standard input, which is the measure. *)
Function while_True (lines : list str) (w : world)
  {measure (fun w => length (stdin w)) w} : result (list str) * world :=
  match input w with
  | (Raise EOFError, w') => (Return lines, w')
  | (Return line, w') =>
      if Str.eqb line [] then (Return lines, w')
      else while_True (lines ++ [line]) w'
  end.
Proof.
  intros lines w r w' line Hr Hin _. unfold input in Hin.
  destruct (stdin w); inversion Hin; simpl; lia.
Defined.

(** [line.replace("\\", "\\\\").replace('"', '\\"')] *)
Definition escape (line : str) : str :=
  replace [dquote] [backslash; dquote]
    (replace [backslash] [backslash; backslash] line).

(** [[escape(line) for line in lines]] *)
Definition escaped_lines (lines : list str) : list str :=
  map escape lines.

(** [f'"{l}\\n" +'] *)
Definition fragment (l : str) : str :=
  [dquote] ++ l ++ [backslash; letter_n; dquote; space; plus_sign].

Definition terminator : str := [dquote; dquote].

(** Lines 4-12: the collector. *)
Definition collect_lines : IO (list str) := while_True [].

(** Lines 15-21: the escaper and formatter. *)
Definition format_lines (lines : list str) : IO unit :=
  let escaped_lines := escaped_lines lines in
  print header ;;
  for_each escaped_lines (fun l => print (fragment l)) ;;
  print terminator.

Definition main : IO unit :=
  print prompt ;;
  lines <- collect_lines ;;
  format_lines lines.

(** A run of the program on an input stream: how it ends and what it
    wrote. *)
Definition run (inp : list str) : result unit * str :=
  let (r, w) := main {| stdin := inp; stdout := [] |} in (r, stdout w).

(** The lines of a stream before its first empty line, and what follows
    that empty line. *)
Fixpoint before_empty (inp : list str) : list str :=
  match inp with
  | [] => []
  | line :: rest => if Str.eqb line [] then [] else line :: before_empty rest
  end.

Fixpoint after_empty (inp : list str) : list str :=
  match inp with
  | [] => []
  | line :: rest => if Str.eqb line [] then rest else after_empty rest
  end.

(** The escape of one character, as the two replacements compose. *)
Definition esc_char (c : char) : str :=
  if N.eqb c backslash then [backslash; backslash]
  else if N.eqb c dquote then [backslash; dquote]
  else [c].

(** The text the formatter writes after the header line. *)
Definition body (lines : list str) : str :=
  flat_map (fun l => fragment l ++ [newline]) (escaped_lines lines) ++
  terminator ++ [newline].

(** What a run that ends normally has written, given the lines after the
    header. *)
Definition expected (fragments : list str) : result unit * str :=
  (Return tt,
   prompt ++ [newline] ++ header ++ [newline] ++
   flat_map (fun l => l ++ [newline]) fragments).

(** The header text between the two newlines of the header string. *)
Definition header_title : str :=
  [36716; 20041; 21518; 30340; 23383; 31526; 30011; 65306]%N.

(** ** The reader's side

    The program's comments say that the escapes make a line fit for
    embedding in a string and that the output is a multi-line string form
    for Python or JavaScript.  The definitions below are the reading of such
    a double-quoted literal, restricted to what both readers accept and to
    the escapes the program emits (backslash-backslash, backslash-quote and
    backslash-n).  Refused are: any other escape, a missing closing quote,
    and between the quotes every character that one of the readers refuses
    there, which are NUL, the line terminators (line feed, carriage return,
    U+2028, U+2029) and what is not a Unicode scalar value. *)

Definition carriage_return : char := 13%N.

(** A character that may stand as itself between the quotes. *)
Definition literal_char (c : char) : bool :=
  negb (N.eqb c 0) &&
  negb (N.eqb c newline) && negb (N.eqb c carriage_return) &&
  negb (N.eqb c 8232) && negb (N.eqb c 8233) &&
  negb (N.leb 55296 c && N.leb c 57343) && N.leb c 1114111.

Definition literal_line (line : str) : bool := forallb literal_char line.

Definition unescape_char (e : char) : option char :=
  if N.eqb e backslash then Some backslash
  else if N.eqb e dquote then Some dquote
  else if N.eqb e letter_n then Some newline
  else None.

(** The value of a literal after its opening quote, and the text after its
    closing quote. *)
Fixpoint read_body (s : str) : option (str * str) :=
  match s with
  | [] => None
  | c :: s' =>
      if N.eqb c dquote then Some ([], s')
      else if negb (literal_char c) then None
      else if N.eqb c backslash then
        match s' with
        | [] => None
        | e :: s'' =>
            match unescape_char e, read_body s'' with
            | Some x, Some (v, rest) => Some (x :: v, rest)
            | _, _ => None
            end
        end
      else
        match read_body s' with
        | Some (v, rest) => Some (c :: v, rest)
        | None => None
        end
  end.

Definition read_literal (s : str) : option (str * str) :=
  match s with
  | [] => None
  | c :: s' => if N.eqb c dquote then read_body s' else None
  end.

(** One line of a concatenation: a literal followed by a space and a plus
    sign ([true]: more operands follow) or by nothing ([false]). *)
Definition read_operand (s : str) : option (str * bool) :=
  match read_literal s with
  | Some (v, rest) =>
      if Str.eqb rest [space; plus_sign] then Some (v, true)
      else if Str.eqb rest [] then Some (v, false)
      else None
  | None => None
  end.

(** The value of a concatenation written one operand per line. *)
Fixpoint eval_concat (ls : list str) : option str :=
  match ls with
  | [] => None
  | l :: ls' =>
      match read_operand l with
      | Some (v, true) =>
          match eval_concat ls' with
          | Some v' => Some (v ++ v')
          | None => None
          end
      | Some (v, false) =>
          match ls' with
          | [] => Some v
          | _ :: _ => None
          end
      | None => None
      end
  end.

(** ** The environment of [input()]

    In the model above [input()] is given a stream of text lines, and the
    end of input is all that can stop it.  A call of [input()] that waits for
    a line can also be interrupted from the keyboard; it then raises
    [KeyboardInterrupt], which the [except EOFError] of line 8 does not
    catch.  This module is the same program over streams that say, call by
    call, what [input()] meets.  On a stream of lines alone it is the model
    above. *)

Module Env.

Inductive event :=
| Line (s : str)   (* a line of text arrives *)
| Interrupt.       (* the call is interrupted *)

Inductive exn := EOFError | KeyboardInterrupt.

Inductive result (A : Type) :=
| Return (a : A)
| Raise (e : exn).
Arguments Return {A} a.
Arguments Raise {A} e.

Record world := World
  { stdin : list event;  (* what the calls of input() still to come meet *)
    stdout : str }.      (* the text written so far *)

Definition IO (A : Type) := world -> result A * world.

Definition ret {A} (a : A) : IO A := fun w => (Return a, w).

(** An exception that is not caught ends what follows. *)
Definition bind {A B} (m : IO A) (k : A -> IO B) : IO B :=
  fun w =>
    match m w with
    | (Return a, w') => k a w'
    | (Raise e, w') => (Raise e, w')
    end.

Declare Scope env_scope.
Delimit Scope env_scope with env.
Notation "x <- m ;; k" := (bind m (fun x => k))
  (at level 100, m at next level, right associativity) : env_scope.
Notation "m ;; k" := (bind m (fun _ => k))
  (at level 100, right associativity) : env_scope.
Local Open Scope env_scope.

(** [input()]: the next line, [EOFError] at the end of input, or
    [KeyboardInterrupt] when the call is interrupted. *)
Definition input : IO str :=
  fun w =>
    match stdin w with
    | [] => (Raise EOFError, w)
    | Line line :: rest =>
        (Return line, {| stdin := rest; stdout := stdout w |})
    | Interrupt :: rest =>
        (Raise KeyboardInterrupt, {| stdin := rest; stdout := stdout w |})
    end.

Definition print (s : str) : IO unit :=
  fun w => (Return tt, {| stdin := stdin w; stdout := stdout w ++ s ++ [newline] |}).

Fixpoint for_each {A} (xs : list A) (body : A -> IO unit) : IO unit :=
  match xs with
  | [] => ret tt
  | x :: xs' => body x ;; for_each xs' body
  end.

(** The loop of lines 5-12.  [except EOFError: break] catches the end of
    input; any other exception of [input()] leaves the loop, and [main],
    uncaught. *)
Function while_True (lines : list str) (w : world)
  {measure (fun w => length (stdin w)) w} : result (list str) * world :=
  match input w with
  | (Return line, w') =>
      if Str.eqb line [] then (Return lines, w')
      else while_True (lines ++ [line]) w'
  | (Raise EOFError, w') => (Return lines, w')
  | (Raise KeyboardInterrupt, w') => (Raise KeyboardInterrupt, w')
  end.
Proof.
  intros lines w r w' line Hr Hin _. unfold input in Hin.
  destruct (stdin w) as [|[s|] rest]; inversion Hin; simpl; lia.
Defined.

Definition collect_lines : IO (list str) := while_True [].

Definition format_lines (lines : list str) : IO unit :=
  let escaped_lines := escaped_lines lines in
  print header ;;
  for_each escaped_lines (fun l => print (fragment l)) ;;
  print terminator.

Definition main : IO unit :=
  print prompt ;;
  lines <- collect_lines ;;
  format_lines lines.

(** A run: how it ends and what it wrote. *)
Definition run (evs : list event) : result unit * str :=
  let (r, w) := main {| stdin := evs; stdout := [] |} in (r, stdout w).

End Env.

(** * Strings: the replacements *)

Example replace_non_overlapping :
  replace (of_string "aa") (of_string "b") (of_string "aaa") = of_string "ba".
Proof. reflexivity. Qed.

Example replace_empty_pattern :
  replace [] (of_string "-") (of_string "abc") = of_string "-a-b-c-".
Proof. reflexivity. Qed.

Section Replace.

Lemma eqb_nil (l : str) : Str.eqb l [] = true <-> l = [].
Proof. destruct l; simpl; split; congruence. Qed.

Lemma eqb_nil_false (l : str) : l <> [] -> Str.eqb l [] = false.
Proof. destruct l; simpl; congruence. Qed.

Variables (c : char) (new : str).

Lemma replace_from_char (s : str) :
  replace_from [c] new 0 s = subst_char c new s.
Proof.
  induction s as [|a s IH]; cbn; [reflexivity|].
  rewrite andb_true_r, N.eqb_sym, IH.
  destruct (N.eqb a c); reflexivity.
Qed.

Lemma replace_char (s : str) : replace [c] new s = subst_char c new s.
Proof. apply replace_from_char. Qed.

Lemma subst_char_app (s t : str) :
  subst_char c new (s ++ t) = subst_char c new s ++ subst_char c new t.
Proof. apply flat_map_app. Qed.

Lemma subst_char_absent (s : str) :
  ~ In c s -> subst_char c new s = s.
Proof.
  induction s as [|a s IH]; cbn; intros H; [reflexivity|].
  destruct (N.eqb_spec a c) as [->|_].
  - exfalso. apply H. now left.
  - cbn. f_equal. apply IH. intros Hin. apply H. now right.
Qed.

End Replace.

Lemma escape_subst (line : str) :
  escape line =
  subst_char dquote [backslash; dquote]
    (subst_char backslash [backslash; backslash] line).
Proof. unfold escape. now rewrite !replace_char. Qed.

Lemma escape_chars (line : str) : escape line = flat_map esc_char line.
Proof.
  rewrite escape_subst.
  induction line as [|a line IH]; [reflexivity|].
  change (subst_char backslash [backslash; backslash] (a :: line))
    with ((if N.eqb a backslash then [backslash; backslash] else [a]) ++
          subst_char backslash [backslash; backslash] line).
  rewrite subst_char_app, IH. cbn [flat_map]. f_equal.
  unfold esc_char.
  destruct (N.eqb_spec a backslash) as [->|_]; [reflexivity|].
  cbn. now rewrite app_nil_r.
Qed.

Lemma escape_cons (a : char) (line : str) :
  escape (a :: line) = esc_char a ++ escape line.
Proof. now rewrite !escape_chars. Qed.

Lemma esc_char_cases (a : char) :
  (a = backslash /\ esc_char a = [backslash; backslash]) \/
  (a = dquote /\ esc_char a = [backslash; dquote]) \/
  (a <> backslash /\ a <> dquote /\ esc_char a = [a]).
Proof.
  unfold esc_char.
  destruct (N.eqb_spec a backslash) as [->|Hb]; [now left|].
  destruct (N.eqb_spec a dquote) as [->|Hq]; [right; now left|].
  right; right. now repeat split.
Qed.

Lemma escape_inj (l1 l2 : str) : escape l1 = escape l2 -> l1 = l2.
Proof.
  revert l2.
  induction l1 as [|a l1 IH]; intros [|b l2]; rewrite ?escape_cons.
  - reflexivity.
  - cbn. destruct (esc_char_cases b) as [[_ ->]|[[_ ->]|[_ [_ ->]]]];
      discriminate.
  - cbn. destruct (esc_char_cases a) as [[_ ->]|[[_ ->]|[_ [_ ->]]]];
      discriminate.
  - destruct (esc_char_cases a) as [[-> ->]|[[-> ->]|[Ha [Ha' ->]]]];
      destruct (esc_char_cases b) as [[-> ->]|[[-> ->]|[Hb [Hb' ->]]]];
      cbn; intros E; inversion E; subst;
      try congruence; f_equal; now apply IH.
Qed.

Lemma In_escape (x : char) (line : str) :
  In x (escape line) -> x = backslash \/ x = dquote \/ In x line.
Proof.
  induction line as [|a line IH]; [intros []|].
  rewrite escape_cons, in_app_iff. intros [H|H].
  - destruct (esc_char_cases a) as [[_ E]|[[_ E]|[_ [_ E]]]];
      rewrite E in H; cbn in H; cbn; intuition (subst; auto).
  - apply IH in H. cbn. intuition.
Qed.

(** * The collector loop *)

Section Collector.

Variable out : str.

Lemma while_True_eof (lines : list str) :
  while_True lines {| stdin := []; stdout := out |} =
  (Return lines, {| stdin := []; stdout := out |}).
Proof. now rewrite while_True_equation. Qed.

Lemma while_True_empty_line (lines rest : list str) :
  while_True lines {| stdin := [] :: rest; stdout := out |} =
  (Return lines, {| stdin := rest; stdout := out |}).
Proof. now rewrite while_True_equation. Qed.

Lemma while_True_append (lines : list str) (line : str) (rest : list str) :
  line <> [] ->
  while_True lines {| stdin := line :: rest; stdout := out |} =
  while_True (lines ++ [line]) {| stdin := rest; stdout := out |}.
Proof.
  intros H. rewrite (while_True_equation lines). cbn.
  now rewrite (eqb_nil_false _ H).
Qed.

(** The loop returns normally, with the buffer extended by the lines
    before the first empty one, and has consumed them and that empty
    line; it writes nothing. *)
Lemma while_True_spec (inp lines : list str) :
  while_True lines {| stdin := inp; stdout := out |} =
  (Return (lines ++ before_empty inp),
   {| stdin := after_empty inp; stdout := out |}).
Proof.
  revert lines.
  induction inp as [|line rest IH]; intros lines; cbn [before_empty after_empty].
  - now rewrite while_True_eof, app_nil_r.
  - destruct line as [|a line].
    + now rewrite while_True_empty_line, app_nil_r.
    + rewrite while_True_append by discriminate.
      cbn [Str.eqb]. now rewrite IH, <- app_assoc.
Qed.

(** The buffer never receives an empty line: an invariant of the loop. *)
Lemma while_True_invariant (lines : list str) (w : world) :
  Forall (fun line => line <> []) lines ->
  exists lines' w',
    while_True lines w = (Return lines', w') /\
    Forall (fun line => line <> []) lines'.
Proof.
  functional induction (while_True lines w); intros Hinv.
  - now exists lines, w'.
  - now exists lines, w'.
  - apply IHp. apply Forall_app. split; [exact Hinv|].
    constructor; [|constructor]. intros ->. discriminate.
Qed.

Lemma collect_lines_spec (inp : list str) :
  collect_lines {| stdin := inp; stdout := out |} =
  (Return (before_empty inp),
   {| stdin := after_empty inp; stdout := out |}).
Proof. unfold collect_lines. now rewrite while_True_spec. Qed.

End Collector.

Lemma before_empty_terminated (L rest : list str) :
  Forall (fun line => line <> []) L ->
  before_empty (L ++ [] :: rest) = L /\ after_empty (L ++ [] :: rest) = rest.
Proof.
  induction 1 as [|line L Hline _ [IHb IHa]]; cbn; [now split|].
  rewrite (eqb_nil_false _ Hline). split; [now rewrite IHb | exact IHa].
Qed.

Lemma before_empty_exhausted (L : list str) :
  Forall (fun line => line <> []) L ->
  before_empty L = L /\ after_empty L = [].
Proof.
  induction 1 as [|line L Hline _ [IHb IHa]]; cbn; [now split|].
  rewrite (eqb_nil_false _ Hline). split; [now rewrite IHb | exact IHa].
Qed.

Lemma before_empty_prefix (inp : list str) :
  inp = before_empty inp \/
  inp = before_empty inp ++ [] :: after_empty inp.
Proof.
  induction inp as [|line rest IH]; cbn; [now left|].
  destruct (Str.eqb line []) eqn:E.
  - apply eqb_nil in E. subst. now right.
  - destruct IH as [IH|IH]; [left|right]; cbn; now f_equal.
Qed.

(** * The formatter *)

Lemma world_eta (w : world) : {| stdin := stdin w; stdout := stdout w |} = w.
Proof. now destruct w. Qed.

Lemma for_each_print (g : str -> str) (ls : list str) (w : world) :
  for_each ls (fun l => print (g l)) w =
  (Return tt,
   {| stdin := stdin w;
      stdout := stdout w ++ flat_map (fun l => g l ++ [newline]) ls |}).
Proof.
  revert w. induction ls as [|l ls IH]; intros w; cbn [for_each flat_map].
  - unfold ret. now rewrite app_nil_r, world_eta.
  - unfold bind at 1. unfold print at 1. rewrite IH. cbn [stdin stdout].
    now rewrite <- !app_assoc.
Qed.

Lemma format_lines_stdout (lines : list str) (w : world) :
  format_lines lines w =
  (Return tt,
   {| stdin := stdin w;
      stdout := stdout w ++ (header ++ [newline]) ++ body lines |}).
Proof.
  unfold format_lines, body, bind. unfold print at 1.
  rewrite for_each_print. unfold print. cbn [stdin stdout].
  now rewrite <- !app_assoc.
Qed.

Lemma main_stdout (w : world) :
  main w =
  (Return tt,
   {| stdin := after_empty (stdin w);
      stdout := stdout w ++ (prompt ++ [newline]) ++
                (header ++ [newline]) ++ body (before_empty (stdin w)) |}).
Proof.
  unfold main, bind. unfold print at 1.
  rewrite collect_lines_spec, format_lines_stdout. cbn [stdin stdout].
  now rewrite <- !app_assoc.
Qed.

(** * Lines of the output text *)

Lemma split_lines_line (l rest : str) :
  ~ In newline l ->
  split_lines (l ++ newline :: rest) = l :: split_lines rest.
Proof.
  induction l as [|a l IH]; intros H.
  - reflexivity.
  - cbn [app split_lines].
    destruct (N.eqb_spec a newline) as [->|_].
    + exfalso. apply H. now left.
    + rewrite IH; [reflexivity|]. intros Hin. apply H. now right.
Qed.

Lemma fragment_no_newline (line : str) :
  ~ In newline line -> ~ In newline (fragment (escape line)).
Proof.
  intros H Hin. unfold fragment in Hin.
  apply in_app_or in Hin. destruct Hin as [Hin|Hin].
  - cbn in Hin. destruct Hin as [Hin|[]]. discriminate.
  - apply in_app_or in Hin. destruct Hin as [Hin|Hin].
    + apply In_escape in Hin. destruct Hin as [Hin|[Hin|Hin]];
        [discriminate|discriminate|now apply H].
    + cbn in Hin. repeat (destruct Hin as [Hin|Hin]; [discriminate|]).
      exact Hin.
Qed.

Lemma split_lines_body (lines : list str) :
  Forall (fun line => ~ In newline line) lines ->
  split_lines (body lines) =
  map (fun line => fragment (escape line)) lines ++ [terminator].
Proof.
  unfold body, escaped_lines.
  induction 1 as [|line lines Hline _ IH]; [reflexivity|].
  cbn [map flat_map app]. rewrite <- !app_assoc. cbn [app].
  rewrite split_lines_line by now apply fragment_no_newline.
  now rewrite IH.
Qed.

(** * The escaping transform *)

(** C1: for every raw line the escape is the replacement of every
    backslash by two backslashes followed by the replacement of every
    double quote by a backslash and a double quote, in that order; the line
    made of one backslash and one double quote escapes to the four
    characters backslash, backslash, backslash, double quote. *)
Theorem escape_backslash_then_quote (line : str) :
  escape line =
    subst_char dquote [backslash; dquote]
      (subst_char backslash [backslash; backslash] line) /\
  escape [backslash; dquote] = [backslash; backslash; backslash; dquote].
Proof. split; [apply escape_subst | reflexivity]. Qed.

(** The other order would escape again the backslash that escapes the
    quote. *)
Remark quote_then_backslash_differs :
  replace [backslash] [backslash; backslash]
    (replace [dquote] [backslash; dquote] [backslash; dquote]) =
  [backslash; backslash; backslash; backslash; dquote].
Proof. reflexivity. Qed.

(** C5: the escaping step yields as many escaped lines as there are raw
    lines, and the i-th escaped line is the escape of the i-th raw line. *)
Theorem escaped_lines_pointwise (lines : list str) :
  length (escaped_lines lines) = length lines /\
  forall i, nth_error (escaped_lines lines) i =
            option_map escape (nth_error lines i).
Proof.
  unfold escaped_lines. split.
  - apply length_map.
  - intros i. apply nth_error_map.
Qed.

(** C6: escaping is not idempotent: the line made of one backslash escapes
    to two backslashes, and those to four. *)
Theorem escape_not_idempotent :
  exists line,
    line = [backslash] /\
    escape line = [backslash; backslash] /\
    escape (escape line) = [backslash; backslash; backslash; backslash] /\
    escape (escape line) <> escape line.
Proof.
  exists [backslash]. repeat split. discriminate.
Qed.

(** C9: a raw line with no backslash and no double quote is its own
    escape. *)
Theorem escape_identity (line : str) :
  ~ In backslash line -> ~ In dquote line -> escape line = line.
Proof.
  intros Hb Hq. rewrite escape_subst.
  rewrite (subst_char_absent backslash _ line Hb).
  now apply subst_char_absent.
Qed.

Lemma escape_identity_witness :
  (~ In backslash (of_string "A B") /\ ~ In dquote (of_string "A B")) /\
  escape (of_string "A B") = of_string "A B".
Proof.
  assert (Hb : ~ In backslash (of_string "A B"))
    by (cbn; intros [H|[H|[H|[]]]]; discriminate).
  assert (Hq : ~ In dquote (of_string "A B"))
    by (cbn; intros [H|[H|[H|[]]]]; discriminate).
  split; [now split|]. exact (escape_identity (of_string "A B") Hb Hq).
Defined.

Lemma fragment_inj (a b : str) : fragment a = fragment b -> a = b.
Proof.
  unfold fragment. intros E. apply app_inv_head in E.
  now apply app_inv_tail in E.
Qed.

(** C10: escaping is injective: distinct raw lines have distinct escapes,
    and so distinct fragments. *)
Theorem escape_injective (l1 l2 : str) :
  l1 <> l2 ->
  escape l1 <> escape l2 /\
  fragment (escape l1) <> fragment (escape l2).
Proof.
  intros H. split; intros E; apply H.
  - now apply escape_inj.
  - now apply escape_inj, fragment_inj.
Qed.

Lemma escape_injective_witness :
  [backslash] <> [backslash; backslash] /\
  escape [backslash] <> escape [backslash; backslash] /\
  fragment (escape [backslash]) <> fragment (escape [backslash; backslash]).
Proof.
  assert (H : [backslash] <> [backslash; backslash]) by discriminate.
  split; [exact H|]. exact (escape_injective [backslash] [backslash; backslash] H).
Defined.

(** * The collector *)

(** C2: on non-empty lines L followed by an empty line the collector
    returns the buffer L, in order; the empty line is consumed and is not in
    the buffer. *)
Theorem collect_until_empty_line (L rest : list str) (out : str) :
  Forall (fun line => line <> []) L ->
  collect_lines {| stdin := L ++ [] :: rest; stdout := out |} =
  (Return L, {| stdin := rest; stdout := out |}).
Proof.
  intros H. rewrite collect_lines_spec.
  now destruct (before_empty_terminated L rest H) as [-> ->].
Qed.

Lemma collect_until_empty_line_witness :
  Forall (fun line => line <> []) [of_string "X"; of_string "Y"] /\
  collect_lines {| stdin := [of_string "X"; of_string "Y"] ++ [] :: [];
                   stdout := [] |} =
  (Return [of_string "X"; of_string "Y"], {| stdin := []; stdout := [] |}).
Proof.
  assert (H : Forall (fun line : str => line <> [])
                [of_string "X"; of_string "Y"])
    by (repeat (constructor; [discriminate|]); constructor).
  split; [exact H|]. exact (collect_until_empty_line [of_string "X"; of_string "Y"] [] [] H).
Defined.

(** C3: when the stream is exhausted before any empty line, collection
    returns normally with exactly the lines read, possibly none, and the
    program goes on to format them and ends normally. *)
Theorem collect_until_exhausted (L : list str) (out : str) :
  Forall (fun line => line <> []) L ->
  collect_lines {| stdin := L; stdout := out |} =
    (Return L, {| stdin := []; stdout := out |}) /\
  main {| stdin := L; stdout := out |} =
    format_lines L {| stdin := []; stdout := out ++ prompt ++ [newline] |} /\
  fst (main {| stdin := L; stdout := out |}) = Return tt.
Proof.
  intros H. destruct (before_empty_exhausted L H) as [Hb Ha].
  repeat split.
  - now rewrite collect_lines_spec, Hb, Ha.
  - unfold main, bind. unfold print at 1. cbn [stdin stdout].
    now rewrite collect_lines_spec, Hb, Ha.
  - now rewrite main_stdout.
Qed.

Lemma collect_until_exhausted_witness :
  Forall (fun line => line <> []) [of_string "X"; of_string "Y"] /\
  collect_lines {| stdin := [of_string "X"; of_string "Y"]; stdout := [] |} =
    (Return [of_string "X"; of_string "Y"], {| stdin := []; stdout := [] |}) /\
  main {| stdin := [of_string "X"; of_string "Y"]; stdout := [] |} =
    format_lines [of_string "X"; of_string "Y"]
      {| stdin := []; stdout := [] ++ prompt ++ [newline] |} /\
  fst (main {| stdin := [of_string "X"; of_string "Y"]; stdout := [] |}) =
    Return tt.
Proof.
  assert (H : Forall (fun line : str => line <> [])
                [of_string "X"; of_string "Y"])
    by (repeat (constructor; [discriminate|]); constructor).
  split; [exact H|]. exact (collect_until_exhausted [of_string "X"; of_string "Y"] [] H).
Defined.

(** C8: whatever the stream, the collected buffer holds no empty line: it
    is the stream itself when that has no empty line, and otherwise the
    lines before the first empty one. *)
Theorem collected_lines_nonempty (inp : list str) (out : str) :
  exists lines w',
    collect_lines {| stdin := inp; stdout := out |} = (Return lines, w') /\
    Forall (fun line => line <> []) lines /\
    (inp = lines \/ exists rest, inp = lines ++ [] :: rest).
Proof.
  destruct (while_True_invariant [] {| stdin := inp; stdout := out |}
              (Forall_nil _)) as (lines & w' & E & Hne).
  exists lines, w'. split; [exact E|]. split; [exact Hne|].
  rewrite while_True_spec in E. injection E as <- _.
  destruct (before_empty_prefix inp) as [P|P]; [now left|right].
  now exists (after_empty inp).
Qed.

(** * The formatter and the whole program *)

(** C4: for a buffer of N lines the formatter writes, after the header,
    N content lines, the i-th being a double quote, the escape of the i-th
    line, backslash, n, a double quote, a space and a plus sign, and then
    one line of two double quotes: N+1 lines.  (A line returned by
    [input()] holds no newline.) *)
Theorem format_lines_fragments (lines : list str) (w : world) :
  Forall (fun line => ~ In newline line) lines ->
  exists text,
    format_lines lines w =
      (Return tt,
       {| stdin := stdin w;
          stdout := stdout w ++ (header ++ [newline]) ++ text |}) /\
    split_lines text =
      map (fun line =>
             [dquote] ++ escape line ++
             [backslash; letter_n; dquote; space; plus_sign]) lines ++
      [[dquote; dquote]] /\
    length (split_lines text) = length lines + 1.
Proof.
  intros H. exists (body lines).
  split; [apply format_lines_stdout|].
  rewrite (split_lines_body lines H). split; [reflexivity|].
  now rewrite length_app, length_map.
Qed.

Lemma format_lines_fragments_witness :
  Forall (fun line => ~ In newline line) [[65; dquote; 66]%N; [backslash]] /\
  exists text,
    format_lines [[65; dquote; 66]%N; [backslash]]
      {| stdin := []; stdout := [] |} =
      (Return tt,
       {| stdin := []; stdout := [] ++ (header ++ [newline]) ++ text |}) /\
    split_lines text =
      map (fun line =>
             [dquote] ++ escape line ++
             [backslash; letter_n; dquote; space; plus_sign])
        [[65; dquote; 66]%N; [backslash]] ++
      [[dquote; dquote]] /\
    length (split_lines text) = 2 + 1.
Proof.
  assert (H : Forall (fun line : str => ~ In newline line)
                [[65; dquote; 66]%N; [backslash]]).
  { constructor; [cbn; intros [E|[E|[E|[]]]]; discriminate|].
    constructor; [cbn; intros [E|[]]; discriminate|]. constructor. }
  split; [exact H|].
  exact (format_lines_fragments [[65; dquote; 66]%N; [backslash]]
           {| stdin := []; stdout := [] |} H).
Defined.

(** * Runs and the environment *)

Section EnvRuns.

Variable out : str.


Lemma env_for_each_print (g : str -> str) (ls : list str) (w : Env.world) :
  Env.for_each ls (fun l => Env.print (g l)) w =
  (Env.Return tt,
   {| Env.stdin := Env.stdin w;
      Env.stdout := Env.stdout w ++
                    flat_map (fun l => g l ++ [newline]) ls |}).
Proof.
  revert w. induction ls as [|l ls IH]; intros w; cbn [Env.for_each flat_map].
  - unfold Env.ret. rewrite app_nil_r. now destruct w.
  - unfold Env.bind at 1. unfold Env.print at 1. rewrite IH.
    cbn [Env.stdin Env.stdout]. now rewrite <- !app_assoc.
Qed.

Lemma env_format_lines_stdout (lines : list str) (w : Env.world) :
  Env.format_lines lines w =
  (Env.Return tt,
   {| Env.stdin := Env.stdin w;
      Env.stdout := Env.stdout w ++ (header ++ [newline]) ++ body lines |}).
Proof.
  unfold Env.format_lines, body, Env.bind. unfold Env.print at 1.
  rewrite env_for_each_print. unfold Env.print. cbn [Env.stdin Env.stdout].
  now rewrite <- !app_assoc.
Qed.

End EnvRuns.


(** On a stream of lines alone the program over the environment is the
    program over lines. *)
Lemma env_run_lines (inp : list str) :
  Env.run (map Env.Line inp) = (Env.Return tt, snd (run inp)).
Proof.
  unfold Env.run, Env.main, Env.bind, Env.collect_lines.
  unfold Env.print at 1. cbn [Env.stdin Env.stdout app].
  unfold run. rewrite main_stdout. cbn [stdin stdout snd app].
  assert (E : forall lines,
             Env.while_True lines
               {| Env.stdin := map Env.Line inp;
                  Env.stdout := prompt ++ [newline] |} =
             (Env.Return (lines ++ before_empty inp),
              {| Env.stdin := map Env.Line (after_empty inp);
                 Env.stdout := prompt ++ [newline] |})).
  { induction inp as [|line rest IH]; intros lines;
      rewrite Env.while_True_equation; cbn.
    - now rewrite app_nil_r.
    - destruct line as [|a line]; cbn [Str.eqb].
      + now rewrite app_nil_r.
      + now rewrite IH, <- app_assoc. }
  rewrite E, env_format_lines_stdout. cbn [Env.stdin Env.stdout app].
  now rewrite <- !app_assoc.
Qed.




(** * The end-to-end scenarios of the specification *)

Example scenario_1 :
  run [of_string "AB"; []] =
  expected [[dquote] ++ of_string "AB\n" ++ [dquote] ++ of_string " +";
            [dquote; dquote]].
Proof. reflexivity. Qed.

Example scenario_2 :
  run [[65; dquote; 66]%N; []] =
  expected [[dquote; 65; backslash; dquote; 66]%N ++ of_string "\n" ++
              [dquote] ++ of_string " +";
            [dquote; dquote]].
Proof. reflexivity. Qed.

Example scenario_3 :
  run [of_string "A\B"; []] =
  expected [[dquote] ++ of_string "A\\B\n" ++ [dquote] ++ of_string " +";
            [dquote; dquote]].
Proof. reflexivity. Qed.

Example scenario_4 : run [[]] = expected [[dquote; dquote]].
Proof. reflexivity. Qed.

Example scenario_5 :
  run [of_string "X"; of_string "Y"] =
  expected [[dquote] ++ of_string "X\n" ++ [dquote] ++ of_string " +";
            [dquote] ++ of_string "Y\n" ++ [dquote] ++ of_string " +";
            [dquote; dquote]].
Proof. reflexivity. Qed.

(** * Further properties of the escaping transform *)

Lemma In_esc_char (x a : char) :
  In x (esc_char a) -> x = backslash \/ x = a.
Proof.
  destruct (esc_char_cases a) as [[-> E]|[[-> E]|[_ [_ E]]]];
    rewrite E; cbn; intuition.
Qed.

Lemma In_esc_char_self (a : char) : In a (esc_char a).
Proof.
  destruct (esc_char_cases a) as [[-> E]|[[-> E]|[_ [_ E]]]];
    rewrite E; cbn; intuition.
Qed.

(** X1: escaping goes through concatenation: the escape of two pieces put
    together is the escapes of the pieces put together. *)
Theorem escape_app (a b : str) : escape (a ++ b) = escape a ++ escape b.
Proof. rewrite !escape_chars. apply flat_map_app. Qed.

(** X2: an escaped line is longer than the raw line by the number of its
    backslashes and double quotes, so it is never shorter and at most twice
    as long. *)
Theorem escape_length (line : str) :
  length (escape line) =
    length line + count_occ N.eq_dec line backslash +
    count_occ N.eq_dec line dquote /\
  length line <= length (escape line) <= 2 * length line.
Proof.
  induction line as [|a line [IH [IHl IHu]]]; [cbn; lia|].
  rewrite escape_cons, length_app. cbn [length count_occ].
  destruct (esc_char_cases a) as [[-> E]|[[-> E]|[Hb [Hq E]]]];
    rewrite E; cbn [length].
  - destruct (N.eq_dec backslash backslash) as [_|N]; [|congruence].
    destruct (N.eq_dec backslash dquote) as [D|_]; [discriminate|]. lia.
  - destruct (N.eq_dec dquote backslash) as [D|_]; [discriminate|].
    destruct (N.eq_dec dquote dquote) as [_|N]; [|congruence]. lia.
  - destruct (N.eq_dec a backslash) as [D|_]; [congruence|].
    destruct (N.eq_dec a dquote) as [D|_]; [congruence|]. lia.
Qed.

(** X3: escaping loses no character and adds only backslashes: every
    character of the raw line is in the escaped line, and every character of
    the escaped line is a backslash or a character of the raw line. *)
Theorem escape_alphabet (x : char) (line : str) :
  (In x line -> In x (escape line)) /\
  (In x (escape line) -> x = backslash \/ In x line).
Proof.
  rewrite escape_chars. split.
  - intros H. apply in_flat_map. exists x. split; [exact H|].
    apply In_esc_char_self.
  - intros H. apply in_flat_map in H. destruct H as (a & Ha & Hx).
    apply In_esc_char in Hx. destruct Hx as [->| ->]; [now left|now right].
Qed.

(** * The emitted text read back *)

Lemma literal_line_cons (a : char) (line : str) :
  literal_line (a :: line) = true ->
  literal_char a = true /\ literal_line line = true.
Proof. cbn. apply andb_true_iff. Qed.

Lemma literal_line_no_newline (line : str) :
  literal_line line = true -> ~ In newline line.
Proof.
  induction line as [|a line IH]; intros H; [intros []|].
  apply literal_line_cons in H. destruct H as [Ha Hl].
  intros [->|Hin]; [discriminate|]. now apply IH.
Qed.

Lemma read_body_escape (line rest : str) :
  literal_line line = true ->
  read_body (escape line ++ backslash :: letter_n :: dquote :: rest) =
  Some (line ++ [newline], rest).
Proof.
  induction line as [|a line IH]; intros H.
  - reflexivity.
  - apply literal_line_cons in H. destruct H as [Ha Hl].
    rewrite escape_cons.
    destruct (esc_char_cases a) as [[-> E]|[[-> E]|[Hb [Hq E]]]]; rewrite E.
    + cbn [app]. change (read_body (backslash :: backslash :: ?t))
        with (match read_body t with
              | Some (v, r) => Some (backslash :: v, r)
              | None => None
              end).
      now rewrite (IH Hl).
    + cbn [app]. change (read_body (backslash :: dquote :: ?t))
        with (match read_body t with
              | Some (v, r) => Some (dquote :: v, r)
              | None => None
              end).
      now rewrite (IH Hl).
    + cbn [app read_body].
      apply N.eqb_neq in Hb, Hq. rewrite Hb, Hq, Ha. cbn [negb].
      now rewrite (IH Hl).
Qed.

(** X4: for a raw line whose characters may all stand in a string literal
    (no NUL, no line feed, carriage return, U+2028 or U+2029, only Unicode
    scalar values), the content line of the output reads back, as a
    double-quoted literal with backslash escapes, to the raw line followed
    by a newline; after the literal come a space and a plus sign.  The
    terminator reads back to the empty string. *)
Theorem fragment_reads_back (line : str) :
  literal_line line = true ->
  read_literal (fragment (escape line)) =
    Some (line ++ [newline], [space; plus_sign]) /\
  read_literal terminator = Some ([], []).
Proof.
  intros H. split; [|reflexivity].
  unfold fragment. cbn [app read_literal].
  change (N.eqb dquote dquote) with true. cbv iota.
  now apply read_body_escape.
Qed.

Lemma fragment_reads_back_witness :
  literal_line [65; dquote; backslash]%N = true /\
  read_literal (fragment (escape [65; dquote; backslash]%N)) =
    Some ([65; dquote; backslash]%N ++ [newline], [space; plus_sign]) /\
  read_literal terminator = Some ([], []).
Proof.
  split; [reflexivity|].
  exact (fragment_reads_back [65; dquote; backslash]%N eq_refl).
Defined.

(** Without the escapes the reading goes wrong: a raw double quote closes
    the literal early, and a raw backslash at the end of the line pairs with
    the backslash of the closing sequence, so the value ends in a backslash
    and the letter n and not in a newline. *)
Remark unescaped_fragment_misread :
  read_operand (fragment [65; dquote; 66]%N) = None /\
  read_operand (fragment [65; backslash]%N) =
    Some ([65; backslash; letter_n]%N, true).
Proof. split; reflexivity. Qed.

(** The escapes cover the backslash and the double quote only.  A line
    that ends in a carriage return, as [input()] returns it for input with
    CRLF line ends, or that holds a NUL, is printed with that character as
    it is, and the content line is then no literal a reader accepts. *)
Remark control_characters_not_escaped :
  escape [65; carriage_return]%N = [65; carriage_return]%N /\
  read_operand (fragment (escape [65; carriage_return]%N)) = None /\
  read_operand (fragment (escape [65; 0]%N)) = None.
Proof. repeat split; reflexivity. Qed.

Lemma read_operand_fragment (line : str) :
  literal_line line = true ->
  read_operand (fragment (escape line)) = Some (line ++ [newline], true).
Proof.
  intros H. unfold read_operand, fragment. cbn [app read_literal].
  change (N.eqb dquote dquote) with true. cbv iota.
  now rewrite (read_body_escape line [space; plus_sign] H).
Qed.

Lemma eval_concat_fragments (lines : list str) :
  Forall (fun line => literal_line line = true) lines ->
  eval_concat (map (fun line => fragment (escape line)) lines ++ [terminator]) =
  Some (flat_map (fun line => line ++ [newline]) lines).
Proof.
  induction 1 as [|line lines Hline _ IH]; [reflexivity|].
  cbn [map app eval_concat flat_map].
  now rewrite (read_operand_fragment line Hline), IH.
Qed.

(** X5: for collected lines whose characters may all stand in a string
    literal, the lines the formatter writes after the header, read as a
    concatenation of string literals, have as value the collected lines,
    each followed by a newline: the text that was entered. *)
Theorem format_lines_value (lines : list str) (w : world) :
  Forall (fun line => literal_line line = true) lines ->
  exists text,
    format_lines lines w =
      (Return tt,
       {| stdin := stdin w;
          stdout := stdout w ++ (header ++ [newline]) ++ text |}) /\
    eval_concat (split_lines text) =
      Some (flat_map (fun line => line ++ [newline]) lines).
Proof.
  intros H. exists (body lines).
  split; [apply format_lines_stdout|].
  assert (Hnl : Forall (fun line => ~ In newline line) lines).
  { apply Forall_forall. intros line Hin.
    apply literal_line_no_newline.
    now apply (proj1 (Forall_forall _ lines) H). }
  rewrite (split_lines_body lines Hnl). now apply eval_concat_fragments.
Qed.

Lemma format_lines_value_witness :
  Forall (fun line => literal_line line = true)
    [[65; dquote]%N; [backslash]] /\
  exists text,
    format_lines [[65; dquote]%N; [backslash]]
      {| stdin := []; stdout := [] |} =
      (Return tt,
       {| stdin := []; stdout := [] ++ (header ++ [newline]) ++ text |}) /\
    eval_concat (split_lines text) =
      Some (flat_map (fun line => line ++ [newline])
              [[65; dquote]%N; [backslash]]).
Proof.
  assert (H : Forall (fun line : str => literal_line line = true)
                [[65; dquote]%N; [backslash]])
    by (repeat (constructor; [reflexivity|]); constructor).
  split; [exact H|].
  exact (format_lines_value [[65; dquote]%N; [backslash]]
           {| stdin := []; stdout := [] |} H).
Defined.

(** * The whole run *)

Lemma prompt_no_newline : ~ In newline prompt.
Proof.
  unfold prompt. intros H.
  repeat (destruct H as [H|H]; [discriminate|]). exact H.
Qed.

Lemma header_title_no_newline : ~ In newline header_title.
Proof.
  unfold header_title. intros H.
  repeat (destruct H as [H|H]; [discriminate|]). exact H.
Qed.

Lemma split_lines_preamble (text : str) :
  split_lines ([] ++ (prompt ++ [newline]) ++ (header ++ [newline]) ++ text) =
  [prompt; []; header_title; []] ++ split_lines text.
Proof.
  change ([] ++ (prompt ++ [newline]) ++ (header ++ [newline]) ++ text)
    with (prompt ++ newline :: [] ++ newline ::
          (header_title ++ [newline] ++ [newline]) ++ text).
  rewrite (split_lines_line prompt _ prompt_no_newline).
  rewrite (split_lines_line [] _ (fun H => H)).
  rewrite <- app_assoc. cbn [app].
  rewrite (split_lines_line header_title _ header_title_no_newline).
  change (newline :: text) with ([] ++ newline :: text).
  now rewrite (split_lines_line [] _ (fun H => H)).
Qed.

Lemma Forall_fst_and {A} (P Q : A -> Prop) (l : list A) :
  Forall (fun x => P x /\ Q x) l -> Forall P l /\ Forall Q l.
Proof. induction 1 as [|x l [Hp Hq] _ [IHp IHq]]; split; auto. Qed.

(** X6: the whole output, line by line.  On a stream that is the non-empty
    lines L, or L followed by an empty line and anything, the run ends
    normally and has written the prompt, an empty line, the header, an empty
    line, one fragment for each line of L in order, and the terminator. *)
Theorem run_output_lines (L rest inp : list str) :
  Forall (fun line => line <> [] /\ ~ In newline line) L ->
  inp = L \/ inp = L ++ [] :: rest ->
  fst (run inp) = Return tt /\
  split_lines (snd (run inp)) =
    [prompt; []; header_title; []] ++
    map (fun line => fragment (escape line)) L ++ [terminator].
Proof.
  intros H Hinp. apply Forall_fst_and in H. destruct H as [Hne Hnl].
  unfold run. rewrite main_stdout. cbn [stdin stdout fst snd].
  split; [reflexivity|].
  assert (E : before_empty inp = L).
  { destruct Hinp as [->| ->].
    - apply (before_empty_exhausted L Hne).
    - apply (before_empty_terminated L rest Hne). }
  rewrite E, split_lines_preamble. now rewrite (split_lines_body L Hnl).
Qed.

Lemma run_output_lines_witness :
  Forall (fun line => line <> [] /\ ~ In newline line) [[65; dquote]%N] /\
  ([[65; dquote]%N; []; [66]%N] = [[65; dquote]%N] \/
   [[65; dquote]%N; []; [66]%N] = [[65; dquote]%N] ++ [] :: [[66]%N]) /\
  fst (run [[65; dquote]%N; []; [66]%N]) = Return tt /\
  split_lines (snd (run [[65; dquote]%N; []; [66]%N])) =
    [prompt; []; header_title; []] ++
    map (fun line => fragment (escape line)) [[65; dquote]%N] ++ [terminator].
Proof.
  assert (H : Forall (fun line : str => line <> [] /\ ~ In newline line)
                [[65; dquote]%N]).
  { constructor; [|constructor].
    split; [discriminate|]. cbn. intros [E|[E|[]]]; discriminate. }
  assert (Hinp : [[65; dquote]%N; []; [66]%N] = [[65; dquote]%N] \/
                 [[65; dquote]%N; []; [66]%N] =
                 [[65; dquote]%N] ++ [] :: [[66]%N])
    by (right; reflexivity).
  split; [exact H|]. split; [exact Hinp|].
  exact (run_output_lines [[65; dquote]%N] [[66]%N]
           [[65; dquote]%N; []; [66]%N] H Hinp).
Defined.

(** X7: what follows the first empty line is neither read nor used: it is
    the input left when the program ends, and the run is the run on the
    lines before the empty line alone. *)
Theorem input_after_empty_line_unread (L rest : list str) (out : str) :
  Forall (fun line => line <> []) L ->
  stdin (snd (main {| stdin := L ++ [] :: rest; stdout := out |})) = rest /\
  run (L ++ [] :: rest) = run L.
Proof.
  intros H.
  destruct (before_empty_terminated L rest H) as [Hb Ha].
  destruct (before_empty_exhausted L H) as [Hb' _].
  split.
  - rewrite main_stdout. cbn [stdin stdout snd]. exact Ha.
  - unfold run. rewrite !main_stdout. cbn [stdin stdout].
    now rewrite Hb, Hb'.
Qed.

Lemma input_after_empty_line_unread_witness :
  Forall (fun line => line <> []) [[65]%N] /\
  stdin (snd (main {| stdin := [[65]%N] ++ [] :: [[66]%N];
                      stdout := [] |})) = [[66]%N] /\
  run ([[65]%N] ++ [] :: [[66]%N]) = run [[65]%N].
Proof.
  assert (H : Forall (fun line : str => line <> []) [[65]%N])
    by (constructor; [discriminate|constructor]).
  split; [exact H|].
  exact (input_after_empty_line_unread [[65]%N] [[66]%N] [] H).
Defined.
